(** * The Fibonacci reference notebook of pybryt's demo

    The notebook defines two functions, both called [fibonacci]: a recursive
    one memoised in the global dict [fibs], and an iterative one that fills a
    numpy array.  Both append value annotations to global lists when their
    [track] flag is set.  This file embeds the two functions over an explicit
    program state and proves their contracts. *)

From Stdlib Require Import ZArith Lia.
From stdpp Require Import gmap list strings.

Open Scope Z_scope.

(** ** Program state and effects *)

(** Python exceptions the two functions can raise. *)
Inductive exn : Type :=
| RecursionError
| IndexError
| ValueError.

Inductive res (A : Type) : Type :=
| Ok (a : A)
| Raise (e : exn).
Arguments Ok {A} a.
Arguments Raise {A} e.

(** What is handed to [pybryt.Value]: the dict or the array as it stands at
    the time of the call. *)
Inductive captured : Type :=
| CapturedMap (m : gmap Z Z)
| CapturedArray (a : list Z).

Inductive annotation : Type :=
| Value (v : captured) (success_message name : string).

(** The globals of the notebook: the memoisation dict [fibs] and the two
    annotation lists. *)
Record State : Type := mkState {
  fibs : gmap Z Z;
  map_annots : list annotation;
  dyn_annots : list annotation
}.

(** [fibs = {}], [map_annots = []], [dyn_annots = []]. *)
Definition init_state : State :=
  {| fibs := ∅; map_annots := []; dyn_annots := [] |}.

(** Instrumentation: the primitive operations of the memoised function, in
    the order they happen. *)
Inductive event : Type :=
| EvCall (n : Z)
| EvAdd (n : Z)
| EvStore (n : Z).

Global Instance event_eq_dec : EqDecision event.
Proof. solve_decision. Defined.

(** A computation reads and writes the globals, may raise, and logs its
    primitive operations.  A raised exception keeps the state reached so
    far, as in Python. *)
Definition M (A : Type) : Type := State → res A * State * list event.

Definition ret {A} (a : A) : M A := λ s, (Ok a, s, []).

Definition raise {A} (e : exn) : M A := λ s, (Raise e, s, []).

Definition bind {A B} (m : M A) (k : A → M B) : M B :=
  λ s, match m s with
       | (Ok a, s1, t1) =>
           match k a s1 with
           | (r, s2, t2) => (r, s2, t1 ++ t2)
           end
       | (Raise e, s1, t1) => (Raise e, s1, t1)
       end.

Notation "'do' x <- m ; k" := (bind m (λ x, k))
  (at level 10, x name, m at level 100, k at level 200, only parsing).
Notation "m ;; k" := (bind m (λ _, k))
  (at level 100, k at level 200, right associativity, only parsing).

Definition lift {A} (r : res A) : M A := λ s, (r, s, []).

Definition tick (e : event) : M unit := λ s, (Ok tt, s, [e]).

Definition get_fibs : M (gmap Z Z) := λ s, (Ok (fibs s), s, []).

(** [fibs[n] = f] on the global dict. *)
Definition store_fib (n f : Z) : M unit :=
  λ s, (Ok tt,
        {| fibs := <[n:=f]> (fibs s);
           map_annots := map_annots s;
           dyn_annots := dyn_annots s |},
        [EvStore n]).

(** [map_annots.append(pybryt.Value(fibs, ...))]. *)
Definition append_map_annot : M unit :=
  λ s, (Ok tt,
        {| fibs := fibs s;
           map_annots := map_annots s ++
             [Value (CapturedMap (fibs s)) "Found hash map implementation" "hash_map"];
           dyn_annots := dyn_annots s |},
        []).

(** [dyn_annots.append(pybryt.Value(a, ...))]. *)
Definition append_dyn_annot (a : list Z) : M unit :=
  λ s, (Ok tt,
        {| fibs := fibs s;
           map_annots := map_annots s;
           dyn_annots := dyn_annots s ++
             [Value (CapturedArray a) "Found dynamic programming implementation" "dyn_array"] |},
        []).

(** [for i in l: a = body(i, a)]. *)
Fixpoint for_each {A} (l : list Z) (body : Z → A → M A) (a : A) : M A :=
  match l with
  | [] => ret a
  | i :: l' => do a' <- body i a; for_each l' body a'
  end.

(** [[f(i) for i in l]], evaluated left to right. *)
Fixpoint map_each {A} (l : list Z) (f : Z → M A) : M (list A) :=
  match l with
  | [] => ret []
  | i :: l' => do v <- f i; do vs <- map_each l' f; ret (v :: vs)
  end.

(** Python's [range(lo, hi)]. *)
Definition range (lo hi : Z) : list Z := seqZ lo (hi - lo).

(** ** The hash map implementation *)

Module HashMap.

(** [depth] is the number of stack frames left before Python raises
    [RecursionError].  The two inner calls leave [track] at its default,
    [True]. *)
Fixpoint fibonacci (depth : nat) (n : Z) (track : bool) : M Z :=
  match depth with
  | O => raise RecursionError
  | S depth' =>
      tick (EvCall n) ;;
      if n =? 0 then ret 0
      else if n =? 1 then ret 1
      else
        do cache <- get_fibs;
        match cache !! n with
        | Some v => ret v
        | None =>
            do a <- fibonacci depth' (n - 1) true;
            do b <- fibonacci depth' (n - 2) true;
            tick (EvAdd n) ;;
            let f := a + b in
            store_fib n f ;;
            (if track then append_map_annot else ret tt) ;;
            ret f
        end
  end.

(** The two loops of the notebook, [for n in range(k): fibonacci(n)] that
    prints the terms and [for n in range(k): fibonacci(n, track=False)] that
    is timed; the result is the list of the values returned. *)
Definition first_terms (depth : nat) (track : bool) (k : Z) : M (list Z) :=
  map_each (range 0 k) (λ n, fibonacci depth n track).

End HashMap.

(** ** The dynamic programming implementation *)

(** numpy's [int] dtype is the C long of the platform: 64 bits, two's
    complement. *)
Definition int_bits : Z := 64.

(** Wrap-around of a signed [int_bits]-bit integer. *)
Definition wrap (x : Z) : Z :=
  (x + 2 ^ (int_bits - 1)) mod 2 ^ int_bits - 2 ^ (int_bits - 1).

(** Addition of two numpy integer scalars: overflow wraps. *)
Definition np_add (a b : Z) : Z := wrap (a + b).

(** [np.zeros(len, dtype=int)]. *)
Definition np_zeros (len : Z) : res (list Z) :=
  if len <? 0 then Raise ValueError else Ok (replicate (Z.to_nat len) 0).

(** numpy resolves a negative index from the end and refuses an index out
    of range. *)
Definition np_index (a : list Z) (i : Z) : res nat :=
  let len := Z.of_nat (length a) in
  if (0 <=? i) && (i <? len) then Ok (Z.to_nat i)
  else if (- len <=? i) && (i <? 0) then Ok (Z.to_nat (i + len))
  else Raise IndexError.

(** [a[i]]. *)
Definition np_get (a : list Z) (i : Z) : res Z :=
  match np_index a i with
  | Ok j => match a !! j with Some v => Ok v | None => Raise IndexError end
  | Raise e => Raise e
  end.

(** [a[i] = v]. *)
Definition np_set (a : list Z) (i : Z) (v : Z) : res (list Z) :=
  match np_index a i with
  | Ok j => Ok (<[j:=v]> a)
  | Raise e => Raise e
  end.

Module DynProg.

(** The body of [for i in range(2, n + 1)]. *)
Definition fill (i : Z) (fibs : list Z) : M (list Z) :=
  do a <- lift (np_get fibs (i - 1));
  do b <- lift (np_get fibs (i - 2));
  lift (np_set fibs i (np_add a b)).

(** The local [fibs] shadows the global dict. *)
Definition fibonacci (n : Z) (track : bool) : M Z :=
  do fibs <- lift (np_zeros (n + 1));
  do fibs <- (if 0 <? n then lift (np_set fibs 1 1) else ret fibs);
  do fibs <- for_each (range 2 (n + 1)) fill fibs;
  (if track then append_dyn_annot fibs else ret tt) ;;
  lift (np_get fibs n).

(** The two loops over the iterative function, as for the hash map
    implementation: [for n in range(k): fibonacci(n)] and
    [for n in range(k): fibonacci(n, track=False)]. *)
Definition first_terms (track : bool) (k : Z) : M (list Z) :=
  map_each (range 0 k) (λ n, fibonacci n track).

End DynProg.

(** ** The submitted notebook *)

Module Submission.

(** The student's function: the hash map algorithm with no [track]
    parameter and no annotation.  It runs in a notebook of its own, whose
    globals are its dict [fibs]. *)
Fixpoint fibonacci (depth : nat) (n : Z) : M Z :=
  match depth with
  | O => raise RecursionError
  | S depth' =>
      tick (EvCall n) ;;
      if n =? 0 then ret 0
      else if n =? 1 then ret 1
      else
        do cache <- get_fibs;
        match cache !! n with
        | Some v => ret v
        | None =>
            do a <- fibonacci depth' (n - 1);
            do b <- fibonacci depth' (n - 2);
            tick (EvAdd n) ;;
            let f := a + b in
            store_fib n f ;;
            ret f
        end
  end.

(** [for n in range(k): fibonacci(n)], printed or timed. *)
Definition first_terms (depth : nat) (k : Z) : M (list Z) :=
  map_each (range 0 k) (λ n, fibonacci depth n).

End Submission.

(** ** The canonical sequence and the invariants of the globals *)

(** The sequence as the specification gives it: 0, 1, and from there on the
    sum of the two previous terms. *)
Fixpoint canonical_nat (n : nat) : Z :=
  match n with
  | O => 0
  | S p =>
      match p with
      | O => 1
      | S q => canonical_nat p + canonical_nat q
      end
  end.

Definition canonical (n : Z) : Z := canonical_nat (Z.to_nat n).

(** Two consecutive terms at once, to evaluate the sequence far out. *)
Fixpoint canonical_pair (n : nat) : Z * Z :=
  match n with
  | O => (0, 1)
  | S p => let '(a, b) := canonical_pair p in (b, a + b)
  end.

(** The value and the final state of a run. *)
Definition value_of {A} (x : res A * State * list event) : res A := x.1.1.
Definition state_of {A} (x : res A * State * list event) : State := x.1.2.

(** Every stored index is a natural number and holds its Fibonacci
    number. *)
Definition cache_ok (c : gmap Z Z) : Prop :=
  ∀ k v, c !! k = Some v → 0 ≤ k ∧ v = canonical k.

(** The dict holds exactly the indices 2..m, each with its Fibonacci
    number. *)
Definition cache_upto (m : Z) (c : gmap Z Z) : Prop :=
  ∀ k, c !! k = if decide (2 ≤ k ≤ m) then Some (canonical k) else None.

(** The state after [fibs[n] = f] and the guarded append. *)
Definition finish (n f : Z) (track : bool) (s : State) : State :=
  let c := <[n:=f]> (fibs s) in
  {| fibs := c;
     map_annots :=
       (if track
        then map_annots s ++
             [Value (CapturedMap c) "Found hash map implementation" "hash_map"]
        else map_annots s);
     dyn_annots := dyn_annots s |}.

(** The states the notebook can be in: the globals as first assigned, then
    any calls of either function. *)
Inductive reachable : State → Prop :=
| reachable_init : reachable init_state
| reachable_map s depth n track :
    reachable s → reachable (state_of (HashMap.fibonacci depth n track s))
| reachable_dyn s n track :
    reachable s → reachable (state_of (DynProg.fibonacci n track s)).

(** How often an event occurs in a log. *)
Definition occurrences (e : event) (t : list event) : nat :=
  length (filter (λ x, x = e) t).

(** What one call of the increasing loop logs once the two previous terms
    are at hand. *)
Definition step_trace (n : Z) : list event :=
  [EvCall n; EvCall (n - 1); EvCall (n - 2); EvAdd n; EvStore n].

(** The log of [fibonacci(0)], ..., [fibonacci(k)] from the empty dict,
    for [1 ≤ k]. *)
Definition loop_trace (k : Z) : list event :=
  [EvCall 0; EvCall 1] ++ concat (step_trace <$> seqZ 2 (k - 1)).

(** The array once the indices up to [i] are filled: wrapped Fibonacci
    numbers, then zeros. *)
Definition filled (i n : Z) : list Z :=
  (λ j, if j <=? i then wrap (canonical j) else 0) <$> seqZ 0 (n + 1).

(** The state after the guarded append of the array. *)
Definition recorded (a : list Z) (track : bool) (s : State) : State :=
  if track
  then {| fibs := fibs s;
          map_annots := map_annots s;
          dyn_annots := dyn_annots s ++
            [Value (CapturedArray a) "Found dynamic programming implementation" "dyn_array"] |}
  else s.



(** How many annotations a completed call [fibonacci(n, track)] appends
    when the dict holds 2..m. *)
Definition cold_annots (m n : Z) (track : bool) : Z :=
  if decide (n ≤ m) then 0 else n - m - 1 + (if track then 1 else 0).

Lemma Ok_inj {A} (a b : A) : Ok a = Ok b → a = b.
Proof. by intros [= ->]. Qed.

(** ** The canonical sequence *)

Lemma canonical_0 : canonical 0 = 0.
Proof. reflexivity. Qed.

Lemma canonical_1 : canonical 1 = 1.
Proof. reflexivity. Qed.

Lemma canonical_rec n : 2 ≤ n → canonical n = canonical (n - 1) + canonical (n - 2).
Proof.
  intros Hn. unfold canonical.
  replace (Z.to_nat n) with (S (S (Z.to_nat (n - 2)))) by lia.
  replace (Z.to_nat (n - 1)) with (S (Z.to_nat (n - 2))) by lia.
  reflexivity.
Qed.

Lemma canonical_pair_spec n :
  canonical_pair n = (canonical_nat n, canonical_nat (S n)).
Proof.
  induction n as [|n IH]; [reflexivity|].
  cbn [canonical_pair]. rewrite IH.
  destruct n; [reflexivity|].
  f_equal. cbn [canonical_nat]. lia.
Qed.

Lemma canonical_fast n : 0 ≤ n → canonical n = (canonical_pair (Z.to_nat n)).1.
Proof. intros _. unfold canonical. by rewrite canonical_pair_spec. Qed.

Lemma canonical_nat_mono n : 0 ≤ canonical_nat n ≤ canonical_nat (S n).
Proof.
  induction n as [|n IH]; [cbn; lia|].
  change (canonical_nat (S (S n))) with (canonical_nat (S n) + canonical_nat n).
  lia.
Qed.

Lemma canonical_nat_le n m : (n ≤ m)%nat → canonical_nat n ≤ canonical_nat m.
Proof.
  induction 1 as [|m _ IH]; [lia|].
  pose proof (canonical_nat_mono m). lia.
Qed.

Lemma canonical_le n m : n ≤ m → canonical n ≤ canonical m.
Proof. intros H. apply canonical_nat_le. lia. Qed.

Lemma canonical_nonneg n : 0 ≤ canonical n.
Proof. apply canonical_nat_mono. Qed.

Lemma canonical_92 : canonical 92 = 7540113804746346429.
Proof. rewrite canonical_fast by lia. vm_compute. reflexivity. Qed.

Lemma canonical_93 : canonical 93 = 12200160415121876738.
Proof. rewrite canonical_fast by lia. vm_compute. reflexivity. Qed.

(** ** Equations of the memoised function *)

Section HashMapEquations.
Context (depth : nat) (n : Z) (track : bool) (s : State).

Lemma fibonacci_exhausted :
  HashMap.fibonacci 0 n track s = (Raise RecursionError, s, []).
Proof. reflexivity. Qed.

Lemma fibonacci_base0 :
  n = 0 → HashMap.fibonacci (S depth) n track s = (Ok 0, s, [EvCall n]).
Proof. intros ->. reflexivity. Qed.

Lemma fibonacci_base1 :
  n = 1 → HashMap.fibonacci (S depth) n track s = (Ok 1, s, [EvCall n]).
Proof. intros ->. reflexivity. Qed.

Lemma fibonacci_hit v :
  n ≠ 0 → n ≠ 1 → fibs s !! n = Some v →
  HashMap.fibonacci (S depth) n track s = (Ok v, s, [EvCall n]).
Proof.
  intros H0 H1 Hv. cbn [HashMap.fibonacci]. unfold bind, tick, get_fibs.
  destruct (Z.eqb_spec n 0); [done|]. destruct (Z.eqb_spec n 1); [done|].
  rewrite Hv. reflexivity.
Qed.

Lemma fibonacci_miss :
  n ≠ 0 → n ≠ 1 → fibs s !! n = None →
  HashMap.fibonacci (S depth) n track s =
    match HashMap.fibonacci depth (n - 1) true s with
    | (Ok a, s1, t1) =>
        match HashMap.fibonacci depth (n - 2) true s1 with
        | (Ok b, s2, t2) =>
            (Ok (a + b), finish n (a + b) track s2,
             EvCall n :: t1 ++ t2 ++ [EvAdd n; EvStore n])
        | (Raise e, s2, t2) => (Raise e, s2, EvCall n :: t1 ++ t2)
        end
    | (Raise e, s1, t1) => (Raise e, s1, EvCall n :: t1)
    end.
Proof.
  intros H0 H1 Hv. cbn [HashMap.fibonacci]. unfold bind, tick, get_fibs.
  destruct (Z.eqb_spec n 0); [done|]. destruct (Z.eqb_spec n 1); [done|].
  rewrite Hv.
  destruct (HashMap.fibonacci depth (n - 1) true s) as [[[a|e] s1] t1];
    [|reflexivity].
  destruct (HashMap.fibonacci depth (n - 2) true s1) as [[[b|e] s2] t2];
    [|reflexivity].
  unfold store_fib, append_map_annot, ret, finish.
  destruct track; cbn; rewrite ?app_nil_r; reflexivity.
Qed.
End HashMapEquations.

(** Case analysis along the four branches of the function body. *)
Ltac fib_branches n s :=
  destruct (decide (n = 0));
    [rewrite fibonacci_base0 by done
    |destruct (decide (n = 1));
      [rewrite fibonacci_base1 by done
      |let v := fresh "v" in
       let Hc := fresh "Hc" in
       destruct (fibs s !! n) as [v|] eqn:Hc;
         [rewrite (fibonacci_hit _ _ _ _ v) by done
         |rewrite fibonacci_miss by done]]].

(** ** What any call leaves alone *)

Lemma fibonacci_frame depth : ∀ n track s,
  let x := HashMap.fibonacci depth n track s in
  fibs s ⊆ fibs (state_of x) ∧
  (∀ k, n < k → fibs (state_of x) !! k = fibs s !! k) ∧
  map_annots s `prefix_of` map_annots (state_of x) ∧
  dyn_annots (state_of x) = dyn_annots s.
Proof.
  induction depth as [|d IH]; intros n track s; cbn zeta.
  { rewrite fibonacci_exhausted. done. }
  fib_branches n s; try done.
  pose proof (IH (n - 1) true s) as (Hs1 & Hk1 & Ha1 & Hd1).
  destruct (HashMap.fibonacci d (n - 1) true s) as [[[a|e] s1] t1];
    [|unfold state_of in *; cbn [fst snd] in *;
      repeat split; [done|intros; apply Hk1; lia|done|done]].
  pose proof (IH (n - 2) true s1) as (Hs2 & Hk2 & Ha2 & Hd2).
  destruct (HashMap.fibonacci d (n - 2) true s1) as [[[b|e] s2] t2];
    unfold state_of in *; cbn [fst snd] in *.
  - assert (Hn : fibs s2 !! n = None).
    { rewrite Hk2, Hk1 by lia. done. }
    repeat split.
    + cbn. etrans; [exact Hs1|]. etrans; [exact Hs2|]. by apply insert_subseteq.
    + intros k Hk. cbn. rewrite lookup_insert_ne by lia.
      rewrite Hk2, Hk1 by lia. done.
    + etrans; [exact Ha1|]. etrans; [exact Ha2|].
      destruct track; cbn; [by apply prefix_app_r|done].
    + cbn. congruence.
  - repeat split.
    + by etrans.
    + intros k Hk. rewrite Hk2, Hk1 by lia. done.
    + by etrans.
    + congruence.
Qed.

(** ** A call with enough stack returns *)

Lemma fibonacci_returns depth : ∀ n track s,
  0 ≤ n < Z.of_nat depth →
  ∃ v, value_of (HashMap.fibonacci depth n track s) = Ok v.
Proof.
  induction depth as [|d IH]; intros n track s Hn; [lia|].
  fib_branches n s; try by eexists.
  destruct (IH (n - 1) true s) as [a Ha]; [lia|].
  destruct (HashMap.fibonacci d (n - 1) true s) as [[[a'|e] s1] t1];
    [|done].
  destruct (IH (n - 2) true s1) as [b Hb]; [lia|].
  destruct (HashMap.fibonacci d (n - 2) true s1) as [[[b'|e] s2] t2];
    [|done].
  by eexists.
Qed.

(** ** Values are right whenever the stored ones are *)

Lemma fibonacci_sound depth : ∀ n track s,
  cache_ok (fibs s) → 0 ≤ n →
  let x := HashMap.fibonacci depth n track s in
  cache_ok (fibs (state_of x)) ∧ ∀ v, value_of x = Ok v → v = canonical n.
Proof.
  induction depth as [|d IH]; intros n track s Hok Hn; cbn zeta.
  { rewrite fibonacci_exhausted. done. }
  fib_branches n s.
  - split; [done|]. intros v [= <-]. by subst n.
  - split; [done|]. intros v [= <-]. by subst n.
  - split; [done|]. intros w [= <-]. by apply Hok.
  - assert (2 ≤ n) as Hn2 by lia.
    destruct (IH (n - 1) true s Hok) as [Hok1 Hv1]; [lia|].
    destruct (HashMap.fibonacci d (n - 1) true s) as [[[a|e] s1] t1];
      [|done].
    destruct (IH (n - 2) true s1 Hok1) as [Hok2 Hv2]; [lia|].
    destruct (HashMap.fibonacci d (n - 2) true s1) as [[[b|e] s2] t2];
      [|done].
    unfold state_of, value_of in *; cbn [fst snd] in *.
    rewrite (Hv1 a eq_refl), (Hv2 b eq_refl), <- canonical_rec by done.
    split; [|congruence].
    intros k v. cbn. rewrite lookup_insert.
    case_decide; [intros [= <-]; subst k; done|apply Hok2].
Qed.

(** ** The dict of a reachable state *)

Lemma cache_upto_empty : cache_upto 1 ∅.
Proof. intros k. rewrite lookup_empty. case_decide; [lia|done]. Qed.

Lemma cache_upto_ok m c : cache_upto m c → cache_ok c.
Proof.
  intros H k v Hk. rewrite H in Hk.
  case_decide; [|done]. injection Hk as <-. split; [lia|done].
Qed.

Lemma cache_upto_insert n c :
  2 ≤ n → cache_upto (n - 1) c → cache_upto n (<[n:=canonical n]> c).
Proof.
  intros Hn H k. rewrite lookup_insert, H.
  repeat case_decide; try lia; by subst.
Qed.

(** A term that is a base case or already stored costs one frame. *)
Lemma fibonacci_ready depth n track s m :
  cache_upto m (fibs s) → 0 ≤ n ≤ m →
  HashMap.fibonacci (S depth) n track s = (Ok (canonical n), s, [EvCall n]).
Proof.
  intros H Hn.
  destruct (decide (n = 0)) as [->|]; [reflexivity|].
  destruct (decide (n = 1)) as [->|]; [reflexivity|].
  apply fibonacci_hit; [done..|].
  rewrite H. case_decide; [done|lia].
Qed.

(** The next term after the stored ones costs two frames. *)
Lemma fibonacci_step depth n track s :
  2 ≤ n → cache_upto (n - 1) (fibs s) →
  HashMap.fibonacci (S (S depth)) n track s =
    (Ok (canonical n), finish n (canonical n) track s, step_trace n).
Proof.
  intros Hn H.
  rewrite fibonacci_miss; [|lia|lia|].
  2: { rewrite H. case_decide; [lia|done]. }
  rewrite (fibonacci_ready _ _ _ _ (n - 1)) by (done || lia).
  rewrite (fibonacci_ready _ _ _ _ (n - 1)) by (done || lia).
  rewrite <- canonical_rec by done. reflexivity.
Qed.

Lemma fibonacci_upto depth : ∀ n track s m,
  1 ≤ m → cache_upto m (fibs s) →
  match HashMap.fibonacci depth n track s with
  | (Ok v, s', _) =>
      0 ≤ n ∧ v = canonical n ∧ cache_upto (Z.max m n) (fibs s')
  | (Raise e, s', _) => e = RecursionError ∧ s' = s
  end.
Proof.
  induction depth as [|d IH]; intros n track s m Hm H; [done|].
  fib_branches n s.
  - subst n. by rewrite Z.max_l by lia.
  - subst n. by rewrite Z.max_l by lia.
  - rewrite H in Hc. case_decide; [|done]. injection Hc as <-.
    rewrite Z.max_l by lia. repeat split; (lia || done).
  - rewrite H in Hc. case_decide; [done|].
    pose proof (IH (n - 1) true s m Hm H) as IH1.
    destruct d as [|d]; [done|].
    destruct (HashMap.fibonacci (S d) (n - 1) true s) as [[[a|e] s1] t1];
      [|done].
    destruct IH1 as (Hn1 & -> & H1).
    rewrite Z.max_r in H1 by lia.
    rewrite (fibonacci_ready _ _ _ _ (n - 1)) by (done || lia).
    rewrite <- canonical_rec by lia.
    split; [lia|]. split; [done|].
    rewrite Z.max_r by lia. apply cache_upto_insert; [lia|done].
Qed.

Lemma fibonacci_negative depth : ∀ n track s m,
  1 ≤ m → cache_upto m (fibs s) → n < 0 →
  ∃ t, HashMap.fibonacci depth n track s = (Raise RecursionError, s, t).
Proof.
  intros n track s m Hm H Hn.
  pose proof (fibonacci_upto depth n track s m Hm H) as Hu.
  destruct (HashMap.fibonacci depth n track s) as [[[a|e] s1] t1].
  - lia.
  - destruct Hu as [-> ->]. by eexists.
Qed.

(** ** Machine integers *)

Lemma wrap_unfold x :
  wrap x = (x + 9223372036854775808) mod 18446744073709551616
           - 9223372036854775808.
Proof. reflexivity. Qed.

Lemma wrap_range x : - 2 ^ 63 ≤ wrap x < 2 ^ 63.
Proof. rewrite wrap_unfold. Z.to_euclidean_division_equations. lia. Qed.

Lemma wrap_small x : - 2 ^ 63 ≤ x < 2 ^ 63 → wrap x = x.
Proof. rewrite wrap_unfold. Z.to_euclidean_division_equations. lia. Qed.

Lemma wrap_congruent x : wrap x mod 2 ^ 64 = x mod 2 ^ 64.
Proof. rewrite wrap_unfold. Z.to_euclidean_division_equations. lia. Qed.

Lemma np_add_wrap a b : np_add (wrap a) (wrap b) = wrap (a + b).
Proof.
  unfold np_add. rewrite !wrap_unfold.
  Z.to_euclidean_division_equations. lia.
Qed.

(** ** The array of the iterative function *)

Lemma length_filled i n : length (filled i n) = Z.to_nat (n + 1).
Proof. unfold filled. by rewrite length_fmap, length_seqZ. Qed.

Lemma lookup_filled i n j :
  0 ≤ j ≤ n →
  filled i n !! Z.to_nat j = Some (if j <=? i then wrap (canonical j) else 0).
Proof.
  intros Hj. unfold filled.
  rewrite list_lookup_fmap, lookup_seqZ_lt by lia. cbn.
  by replace (0 + Z.of_nat (Z.to_nat j)) with j by lia.
Qed.

Lemma np_index_in (a : list Z) j :
  0 ≤ j < Z.of_nat (length a) → np_index a j = Ok (Z.to_nat j).
Proof.
  intros Hj. unfold np_index.
  destruct (Z.leb_spec 0 j); [|lia].
  destruct (Z.ltb_spec j (Z.of_nat (length a))); [done|lia].
Qed.

Lemma np_get_filled i n j :
  0 ≤ j ≤ n →
  np_get (filled i n) j = Ok (if j <=? i then wrap (canonical j) else 0).
Proof.
  intros Hj. unfold np_get.
  rewrite np_index_in by (rewrite length_filled; lia).
  by rewrite lookup_filled.
Qed.

Lemma np_set_filled i n :
  0 ≤ i < n →
  np_set (filled i n) (i + 1) (wrap (canonical (i + 1))) = Ok (filled (i + 1) n).
Proof.
  intros Hi. unfold np_set.
  rewrite np_index_in by (rewrite length_filled; lia).
  f_equal. apply list_eq. intros k.
  destruct (decide (k < Z.to_nat (n + 1))%nat) as [Hk|Hk].
  - replace k with (Z.to_nat (Z.of_nat k)) at 2 by lia.
    rewrite lookup_filled by lia.
    destruct (decide (Z.to_nat (i + 1) = k)) as [<-|Hne].
    + rewrite list_lookup_insert_eq by (rewrite length_filled; lia).
      destruct (Z.leb_spec (Z.of_nat (Z.to_nat (i + 1))) (i + 1)); [|lia].
      do 3 f_equal. lia.
    + rewrite list_lookup_insert_ne by done.
      replace k with (Z.to_nat (Z.of_nat k)) at 1 by lia.
      rewrite lookup_filled by lia.
      destruct (Z.leb_spec (Z.of_nat k) i), (Z.leb_spec (Z.of_nat k) (i + 1));
        (done || lia).
  - rewrite !lookup_ge_None_2; [done|..].
    + rewrite length_filled. lia.
    + rewrite length_insert, length_filled. lia.
Qed.

Lemma np_zeros_filled n : 0 ≤ n → np_zeros (n + 1) = Ok (filled 0 n).
Proof.
  intros Hn. unfold np_zeros.
  destruct (Z.ltb_spec (n + 1) 0); [lia|].
  f_equal. apply list_eq. intros k.
  destruct (decide (k < Z.to_nat (n + 1))%nat) as [Hk|Hk].
  - rewrite lookup_replicate_2 by done.
    replace k with (Z.to_nat (Z.of_nat k)) by lia.
    rewrite lookup_filled by lia.
    destruct (Z.leb_spec (Z.of_nat k) 0); [|done].
    by replace (Z.of_nat k) with 0 by lia.
  - rewrite !lookup_ge_None_2; [done|..].
    + rewrite length_filled. lia.
    + rewrite length_replicate. lia.
Qed.

(** One round of the loop extends the filled part by one index. *)
Lemma fill_filled i n s :
  1 ≤ i < n →
  DynProg.fill (i + 1) (filled i n) s = (Ok (filled (i + 1) n), s, []).
Proof.
  intros Hi. unfold DynProg.fill, bind, lift.
  replace (i + 1 - 1) with i by lia.
  rewrite !np_get_filled by lia.
  destruct (Z.leb_spec i i); [|lia].
  destruct (Z.leb_spec (i + 1 - 2) i); [|lia].
  rewrite np_add_wrap.
  replace (canonical i + canonical (i + 1 - 2)) with (canonical (i + 1)).
  2: { rewrite (canonical_rec (i + 1)) by lia. f_equal; f_equal; lia. }
  by rewrite np_set_filled by lia.
Qed.

Lemma for_each_fill (len : nat) : ∀ i n s,
  1 ≤ i → i + Z.of_nat len ≤ n →
  for_each (seqZ (i + 1) (Z.of_nat len)) DynProg.fill (filled i n) s =
    (Ok (filled (i + Z.of_nat len) n), s, []).
Proof.
  induction len as [|len IH]; intros i n s Hi Hn.
  { replace (i + Z.of_nat 0) with i by lia. reflexivity. }
  rewrite seqZ_cons by lia. cbn [for_each]. unfold bind.
  rewrite fill_filled by lia.
  replace (Z.pred (Z.of_nat (S len))) with (Z.of_nat len) by lia.
  replace (Z.succ (i + 1)) with (i + 1 + 1) by lia.
  rewrite IH by lia.
  by replace (i + 1 + Z.of_nat len) with (i + Z.of_nat (S len)) by lia.
Qed.

(** The iterative function on a natural number: the wrapped Fibonacci
    number, and the array appended to [dyn_annots] when [track] is set. *)
Lemma dyn_fibonacci_spec n track s :
  0 ≤ n →
  DynProg.fibonacci n track s =
    (Ok (wrap (canonical n)), recorded (filled n n) track s, []).
Proof.
  intros Hn. unfold DynProg.fibonacci.
  unfold bind at 1. unfold lift at 1. rewrite np_zeros_filled by done.
  unfold bind at 1.
  assert (Hinit : (if 0 <? n then lift (np_set (filled 0 n) 1 1) else ret (filled 0 n)) s
                  = (Ok (filled 1 n), s, [])).
  { destruct (Z.ltb_spec 0 n).
    - unfold lift. change 1 with (0 + 1) at 1.
      change 1 with (wrap (canonical (0 + 1))) at 2.
      by rewrite np_set_filled by lia.
    - replace n with 0 by lia. reflexivity. }
  rewrite Hinit. unfold bind at 1.
  assert (Hloop : for_each (range 2 (n + 1)) DynProg.fill (filled 1 n) s
                  = (Ok (filled n n), s, [])).
  { destruct (Z.ltb_spec 0 n).
    - unfold range.
      replace (n + 1 - 2) with (Z.of_nat (Z.to_nat (n - 1))) by lia.
      change 2 with (1 + 1).
      rewrite for_each_fill by lia.
      by replace (1 + Z.of_nat (Z.to_nat (n - 1))) with n by lia.
    - replace n with 0 by lia. reflexivity. }
  rewrite Hloop. unfold bind, lift.
  rewrite np_get_filled by lia.
  destruct (Z.leb_spec n n); [|lia].
  destruct track; reflexivity.
Qed.

(** The iterative function never reads or writes the dict or [map_annots],
    whatever its argument. *)
Lemma dyn_fibonacci_frame n track s :
  let x := DynProg.fibonacci n track s in
  fibs (state_of x) = fibs s ∧ map_annots (state_of x) = map_annots s.
Proof.
  cbn zeta. destruct (decide (0 ≤ n)) as [Hn|Hn].
  - rewrite dyn_fibonacci_spec by done. by destruct track.
  - unfold DynProg.fibonacci, bind, lift, np_zeros.
    destruct (Z.ltb_spec (n + 1) 0); [done|].
    replace n with (-1) by lia. by destruct track.
Qed.

Lemma reachable_upto s : reachable s → ∃ m, 1 ≤ m ∧ cache_upto m (fibs s).
Proof.
  induction 1 as [|s depth n track _ (m & Hm & IH)|s n track _ (m & Hm & IH)].
  - exists 1. split; [done|]. apply cache_upto_empty.
  - pose proof (fibonacci_upto depth n track s m Hm IH) as Hu.
    destruct (HashMap.fibonacci depth n track s) as [[[a|e] s1] t1];
      unfold state_of; cbn [fst snd].
    + exists (Z.max m n). split; [lia|]. apply Hu.
    + destruct Hu as [_ ->]. by exists m.
  - exists m. split; [done|].
    by rewrite (proj1 (dyn_fibonacci_frame n track s)).
Qed.

Lemma reachable_cache_ok s : reachable s → cache_ok (fibs s).
Proof. intros (m & _ & H)%reachable_upto. by eapply cache_upto_ok. Qed.

(** ** The increasing loop *)

Lemma map_each_snoc {A} (f : Z → M A) x : ∀ l s,
  map_each (l ++ [x]) f s =
    match map_each l f s with
    | (Ok vs, s1, t1) =>
        match f x s1 with
        | (Ok v, s2, t2) => (Ok (vs ++ [v]), s2, t1 ++ t2)
        | (Raise e, s2, t2) => (Raise e, s2, t1 ++ t2)
        end
    | (Raise e, s1, t1) => (Raise e, s1, t1)
    end.
Proof.
  induction l as [|i l IH]; intros s; cbn [app map_each]; unfold bind, ret.
  - destruct (f x s) as [[[v|e] s1] t1]; [|done].
    by rewrite !app_nil_r.
  - destruct (f i s) as [[[v|e] s1] t1]; [|done].
    fold (@map_each A). rewrite IH.
    destruct (map_each l f s1) as [[[vs|e] s2] t2]; [|done].
    destruct (f x s2) as [[[w|e] s3] t3];
      by rewrite !app_nil_r, app_assoc.
Qed.

Lemma occurrences_app e t1 t2 :
  occurrences e (t1 ++ t2) = (occurrences e t1 + occurrences e t2)%nat.
Proof. unfold occurrences. by rewrite filter_app, length_app. Qed.

Lemma occurrences_add_step i n :
  occurrences (EvAdd i) (step_trace n) = if decide (i = n) then 1%nat else 0%nat.
Proof.
  unfold occurrences, step_trace.
  rewrite !filter_cons, filter_nil.
  repeat case_decide; simplify_eq; done.
Qed.

Lemma occurrences_store_step i n :
  occurrences (EvStore i) (step_trace n) = if decide (i = n) then 1%nat else 0%nat.
Proof.
  unfold occurrences, step_trace.
  rewrite !filter_cons, filter_nil.
  repeat case_decide; simplify_eq; done.
Qed.

Lemma loop_trace_succ (j : nat) :
  loop_trace (Z.of_nat j + 2) =
    loop_trace (Z.of_nat j + 1) ++ step_trace (Z.of_nat j + 2).
Proof.
  unfold loop_trace.
  replace (Z.of_nat j + 2 - 1) with (Z.of_nat (S j)) by lia.
  replace (Z.of_nat j + 1 - 1) with (Z.of_nat j) by lia.
  rewrite seqZ_S, fmap_app, concat_app. cbn [fmap list_fmap concat].
  rewrite app_nil_r, <- app_assoc.
  by replace (2 + Z.of_nat j) with (Z.of_nat j + 2) by lia.
Qed.

Lemma loop_trace_length (j : nat) :
  Z.of_nat (length (loop_trace (Z.of_nat j + 1))) = 5 * Z.of_nat j + 2.
Proof.
  induction j as [|j IH]; [reflexivity|].
  replace (Z.of_nat (S j) + 1) with (Z.of_nat j + 2) by lia.
  rewrite loop_trace_succ, length_app. cbn [step_trace length]. lia.
Qed.

Lemma loop_trace_adds (j : nat) i :
  occurrences (EvAdd i) (loop_trace (Z.of_nat j + 1)) =
    if decide (2 ≤ i ≤ Z.of_nat j + 1) then 1%nat else 0%nat.
Proof.
  induction j as [|j IH].
  - case_decide; [lia|reflexivity].
  - replace (Z.of_nat (S j) + 1) with (Z.of_nat j + 2) by lia.
    rewrite loop_trace_succ, occurrences_app, IH, occurrences_add_step.
    repeat case_decide; lia.
Qed.

Lemma loop_trace_stores (j : nat) i :
  occurrences (EvStore i) (loop_trace (Z.of_nat j + 1)) =
    if decide (2 ≤ i ≤ Z.of_nat j + 1) then 1%nat else 0%nat.
Proof.
  induction j as [|j IH].
  - case_decide; [lia|reflexivity].
  - replace (Z.of_nat (S j) + 1) with (Z.of_nat j + 2) by lia.
    rewrite loop_trace_succ, occurrences_app, IH, occurrences_store_step.
    repeat case_decide; lia.
Qed.

(** Running [fibonacci(0)], ..., [fibonacci(j + 1)] from the empty dict with
    two frames of stack. *)
Lemma first_terms_run depth track s (j : nat) :
  fibs s = ∅ →
  ∃ s',
    HashMap.first_terms (S (S depth)) track (Z.of_nat j + 2) s =
      (Ok (canonical <$> seqZ 0 (Z.of_nat j + 2)), s',
       loop_trace (Z.of_nat j + 1)) ∧
    cache_upto (Z.of_nat j + 1) (fibs s').
Proof.
  intros Hs. unfold HashMap.first_terms, range.
  induction j as [|j (s1 & Hrun & Hc)].
  - exists s. split; [reflexivity|]. rewrite Hs. apply cache_upto_empty.
  - replace (Z.of_nat (S j) + 2 - 0) with (Z.of_nat (S (j + 2))) by lia.
    rewrite seqZ_S, map_each_snoc.
    replace (Z.of_nat (j + 2)) with (Z.of_nat j + 2 - 0) by lia.
    rewrite Hrun.
    replace (0 + (Z.of_nat j + 2 - 0)) with (Z.of_nat j + 2) by lia.
    rewrite fibonacci_step; [|lia|].
    2: { by replace (Z.of_nat j + 2 - 1) with (Z.of_nat j + 1) by lia. }
    eexists. split.
    + replace (Z.of_nat (S j) + 2) with (Z.of_nat (S (j + 2))) by lia.
      rewrite seqZ_S, fmap_app.
      replace (Z.of_nat (j + 2)) with (Z.of_nat j + 2) by lia.
      replace (Z.of_nat (S j) + 1) with (Z.of_nat j + 2) by lia.
      by rewrite loop_trace_succ.
    + replace (Z.of_nat (S j) + 1) with (Z.of_nat j + 2) by lia.
      apply cache_upto_insert; [lia|].
      by replace (Z.of_nat j + 2 - 1) with (Z.of_nat j + 1) by lia.
Qed.

(** ** Further facts about single calls *)

(** From a dict with right values, a call with enough stack returns the
    Fibonacci number and leaves the values right. *)
Lemma fibonacci_total depth n track s :
  cache_ok (fibs s) → 0 ≤ n < Z.of_nat depth →
  ∃ s' t,
    HashMap.fibonacci depth n track s = (Ok (canonical n), s', t) ∧
    cache_ok (fibs s').
Proof.
  intros Hok Hn.
  destruct (fibonacci_returns depth n track s Hn) as [v Hv].
  destruct (fibonacci_sound depth n track s Hok) as [Hok' Hval]; [lia|].
  destruct (HashMap.fibonacci depth n track s) as [[r s'] t].
  unfold value_of, state_of in *; cbn [fst snd] in *. subst r.
  rewrite (Hval v eq_refl). by exists s', t.
Qed.

(** Whatever a call beyond the base cases returns is stored under its
    index afterwards. *)
Lemma fibonacci_stored depth n track s v s' t :
  HashMap.fibonacci depth n track s = (Ok v, s', t) →
  n ≠ 0 → n ≠ 1 → fibs s' !! n = Some v.
Proof.
  intros Hrun H0 H1. destruct depth as [|d]; [done|].
  destruct (fibs s !! n) as [w|] eqn:Hc.
  - rewrite (fibonacci_hit _ _ _ _ w) in Hrun by done. by simplify_eq.
  - rewrite fibonacci_miss in Hrun by done.
    destruct (HashMap.fibonacci d (n - 1) true s) as [[[a|e] s1] t1];
      [|done].
    destruct (HashMap.fibonacci d (n - 2) true s1) as [[[b|e] s2] t2];
      [|done].
    simplify_eq. cbn. apply lookup_insert_eq.
Qed.

(** A tracked call that has to compute its term appends an annotation. *)
Lemma fibonacci_annots_grow depth n s v s' t :
  HashMap.fibonacci depth n true s = (Ok v, s', t) →
  n ≠ 0 → n ≠ 1 → fibs s !! n = None →
  (length (map_annots s) < length (map_annots s'))%nat.
Proof.
  intros Hrun H0 H1 Hc. destruct depth as [|d]; [done|].
  rewrite fibonacci_miss in Hrun by done.
  pose proof (fibonacci_frame d (n - 1) true s) as (_ & _ & Ha1 & _).
  destruct (HashMap.fibonacci d (n - 1) true s) as [[[a|e] s1] t1];
    [|done].
  pose proof (fibonacci_frame d (n - 2) true s1) as (_ & _ & Ha2 & _).
  destruct (HashMap.fibonacci d (n - 2) true s1) as [[[b|e] s2] t2];
    [|done].
  apply prefix_length in Ha1, Ha2.
  unfold state_of in *; cbn [fst snd] in *.
  simplify_eq. cbn. rewrite length_app. cbn. lia.
Qed.

(** The iterative function is exact as long as the term fits. *)
Lemma dyn_fibonacci_exact n track s :
  0 ≤ n ≤ 92 →
  value_of (DynProg.fibonacci n track s) = Ok (canonical n).
Proof.
  intros Hn. rewrite dyn_fibonacci_spec by lia.
  unfold value_of; cbn [fst]. f_equal. apply wrap_small.
  pose proof (canonical_nonneg n).
  pose proof (canonical_le n 92 ltac:(lia)) as Hle.
  rewrite canonical_92 in Hle. lia.
Qed.

(** From 93 on the term does not fit. *)
Lemma wrap_canonical_overflow n : 93 ≤ n → wrap (canonical n) ≠ canonical n.
Proof.
  intros Hn.
  pose proof (wrap_range (canonical n)).
  pose proof (canonical_le 93 n Hn) as Hle.
  rewrite canonical_93 in Hle. lia.
Qed.

(** ** The claims *)

(** C1.  In every state the notebook can reach, a call [fibonacci(n)] of
    the hash map implementation with [0 ≤ n] and enough stack returns the
    n-th Fibonacci number.  For [n = 0] it returns 0 and for [n = 1] it
    returns 1, the state untouched.  For [2 ≤ n] with [n] a key of [fibs] it
    returns the stored value, the state untouched; with [n] not a key it
    runs [fibonacci(n - 1)], then [fibonacci(n - 2)], adds the two results,
    stores the sum under [n] and returns it.  Printing the terms for
    [n = 0..9] from the initial state gives 0 1 1 2 3 5 8 13 21 34. *)
Theorem C1_memo_fibonacci_contract :
  (∀ s depth n track,
     reachable s → 0 ≤ n < Z.of_nat depth →
     ∃ s' t,
       HashMap.fibonacci depth n track s = (Ok (canonical n), s', t) ∧
       (n = 0 → canonical n = 0 ∧ s' = s) ∧
       (n = 1 → canonical n = 1 ∧ s' = s) ∧
       (2 ≤ n → ∀ v, fibs s !! n = Some v → canonical n = v ∧ s' = s) ∧
       (2 ≤ n → fibs s !! n = None →
        ∃ s1 t1 s2 t2,
          HashMap.fibonacci (pred depth) (n - 1) true s =
            (Ok (canonical (n - 1)), s1, t1) ∧
          HashMap.fibonacci (pred depth) (n - 2) true s1 =
            (Ok (canonical (n - 2)), s2, t2) ∧
          canonical n = canonical (n - 1) + canonical (n - 2) ∧
          fibs s' = <[n:=canonical n]> (fibs s2) ∧
          s' = finish n (canonical n) track s2)) ∧
  (∀ depth, (2 ≤ depth)%nat →
     value_of (HashMap.first_terms depth true 10 init_state) =
       Ok [0; 1; 1; 2; 3; 5; 8; 13; 21; 34]).
Proof.
  split.
  - intros s depth n track Hs Hn.
    pose proof (reachable_cache_ok s Hs) as Hok.
    destruct (fibonacci_total depth n track s Hok Hn) as (s' & t & Hrun & _).
    exists s', t. split; [done|].
    destruct depth as [|d]; [lia|]. cbn [pred].
    repeat split.
    + by subst n.
    + subst n. rewrite fibonacci_base0 in Hrun by done. congruence.
    + by subst n.
    + subst n. rewrite fibonacci_base1 in Hrun by done. congruence.
    + rewrite (fibonacci_hit _ _ _ _ v) in Hrun by (done || lia). congruence.
    + rewrite (fibonacci_hit _ _ _ _ v) in Hrun by (done || lia). congruence.
    + intros Hn2 Hc. rewrite fibonacci_miss in Hrun by (done || lia).
      destruct (decide (d = 0%nat)) as [->|Hd].
      { by rewrite fibonacci_exhausted in Hrun. }
      destruct (fibonacci_total d (n - 1) true s Hok) as (s1 & t1 & Hr1 & Hok1);
        [lia|].
      destruct (fibonacci_total d (n - 2) true s1 Hok1) as (s2 & t2 & Hr2 & _);
        [lia|].
      rewrite Hr1, Hr2 in Hrun. exists s1, t1, s2, t2.
      rewrite <- canonical_rec in Hrun by done.
      repeat split; try done.
      * by apply canonical_rec.
      * by simplify_eq.
      * by simplify_eq.
  - intros [|[|d]] Hd; [lia..|].
    destruct (first_terms_run d true init_state 8 eq_refl) as (s' & Hrun & _).
    change (Z.of_nat 8 + 2) with 10 in Hrun. rewrite Hrun. reflexivity.
Qed.

Lemma C1_memo_fibonacci_contract_witness :
  ∃ s' t,
    HashMap.fibonacci 6 5 true init_state = (Ok (canonical 5), s', t) ∧
    (5 = 0 → canonical 5 = 0 ∧ s' = init_state) ∧
    (5 = 1 → canonical 5 = 1 ∧ s' = init_state) ∧
    (2 ≤ 5 → ∀ v, fibs init_state !! 5 = Some v →
     canonical 5 = v ∧ s' = init_state) ∧
    (2 ≤ 5 → fibs init_state !! 5 = None →
     ∃ s1 t1 s2 t2,
       HashMap.fibonacci (pred 6) (5 - 1) true init_state =
         (Ok (canonical (5 - 1)), s1, t1) ∧
       HashMap.fibonacci (pred 6) (5 - 2) true s1 =
         (Ok (canonical (5 - 2)), s2, t2) ∧
       canonical 5 = canonical (5 - 1) + canonical (5 - 2) ∧
       fibs s' = <[5:=canonical 5]> (fibs s2) ∧
       s' = finish 5 (canonical 5) true s2).
Proof.
  apply (proj1 C1_memo_fibonacci_contract init_state 6%nat 5 true).
  - apply reachable_init.
  - lia.
Defined.

(** The concrete calls the specification lists for the iterative
    function. *)
Example dyn_fibonacci_10 :
  value_of (DynProg.fibonacci 10 true init_state) = Ok 55.
Proof. reflexivity. Qed.

Example dyn_fibonacci_0 :
  value_of (DynProg.fibonacci 0 true init_state) = Ok 0.
Proof. reflexivity. Qed.

Example dyn_fibonacci_1 :
  value_of (DynProg.fibonacci 1 true init_state) = Ok 1.
Proof. reflexivity. Qed.

(** C2.  The iterative function does not return the n-th Fibonacci number
    for every [0 ≤ n]: at [n = 93] it returns -6246583658587674878, while
    the 93rd Fibonacci number, which the hash map implementation returns,
    is 12200160415121876738. *)
Theorem C2_dyn_fibonacci_wrong_at_93 :
  (∀ track s,
     value_of (DynProg.fibonacci 93 track s) = Ok (-6246583658587674878)) ∧
  canonical 93 = 12200160415121876738 ∧
  value_of (HashMap.fibonacci 94 93 true init_state) = Ok (canonical 93).
Proof.
  split; [|split].
  - intros track s. rewrite dyn_fibonacci_spec by lia.
    unfold value_of; cbn [fst]. rewrite canonical_93. reflexivity.
  - apply canonical_93.
  - destruct (fibonacci_total 94 93 true init_state) as (s' & t & Hrun & _).
    + apply reachable_cache_ok, reachable_init.
    + lia.
    + by rewrite Hrun.
Qed.

(** C3.  For [0 ≤ n < 30] the hash map implementation, called in any
    reachable state with enough stack, and the iterative implementation,
    called in any state, return the same value, the canonical Fibonacci
    number of [n], where canonical(0) = 0, canonical(1) = 1 and
    canonical(n) = canonical(n-1) + canonical(n-2) from 2 on. *)
Theorem C3_implementations_agree_below_30 :
  (∀ n depth track s track' s',
     0 ≤ n < 30 → n < Z.of_nat depth → reachable s →
     value_of (HashMap.fibonacci depth n track s) =
       value_of (DynProg.fibonacci n track' s') ∧
     value_of (HashMap.fibonacci depth n track s) = Ok (canonical n) ∧
     value_of (DynProg.fibonacci n track' s') = Ok (canonical n)) ∧
  canonical 0 = 0 ∧
  canonical 1 = 1 ∧
  (∀ n, 2 ≤ n → canonical n = canonical (n - 1) + canonical (n - 2)).
Proof.
  split; [|split; [|split]];
    [|apply canonical_0|apply canonical_1|apply canonical_rec].
  intros n depth track s track' s' Hn Hd Hs.
  destruct (fibonacci_total depth n track s) as (s1 & t & Hrun & _);
    [by apply reachable_cache_ok|lia|].
  rewrite Hrun, dyn_fibonacci_exact by lia. done.
Qed.

Lemma C3_implementations_agree_below_30_witness :
  value_of (HashMap.fibonacci 30 29 false init_state) =
    value_of (DynProg.fibonacci 29 false init_state) ∧
  value_of (HashMap.fibonacci 30 29 false init_state) = Ok (canonical 29) ∧
  value_of (DynProg.fibonacci 29 false init_state) = Ok (canonical 29).
Proof.
  apply (proj1 C3_implementations_agree_below_30
           29 30%nat false init_state false init_state).
  - lia.
  - lia.
  - apply reachable_init.
Defined.

(** C4.  In any state whatever, calling the hash map implementation twice
    in a row with the same [0 ≤ n] (and enough stack) returns the same
    value both times, and the second call changes no entry of the dict; it
    leaves the whole state as the first call left it. *)
Theorem C4_second_call_idempotent s depth n track track' :
  0 ≤ n < Z.of_nat depth →
  ∃ v s1 t1 s2 t2,
    HashMap.fibonacci depth n track s = (Ok v, s1, t1) ∧
    HashMap.fibonacci depth n track' s1 = (Ok v, s2, t2) ∧
    (∀ k w, fibs s1 !! k = Some w → fibs s2 !! k = Some w) ∧
    s2 = s1.
Proof.
  intros Hn.
  destruct (fibonacci_returns depth n track s Hn) as [v Hv].
  destruct (HashMap.fibonacci depth n track s) as [[r s1] t1] eqn:Hrun.
  unfold value_of in Hv; cbn [fst] in Hv. subst r.
  exists v, s1, t1, s1, [EvCall n].
  destruct depth as [|d]; [lia|].
  split; [done|]. split; [|done].
  destruct (decide (n = 0)) as [->|H0].
  { rewrite fibonacci_base0 in Hrun |- * by done. congruence. }
  destruct (decide (n = 1)) as [->|H1].
  { rewrite fibonacci_base1 in Hrun |- * by done. congruence. }
  apply fibonacci_hit; [done..|].
  by eapply fibonacci_stored.
Qed.

Lemma C4_second_call_idempotent_witness :
  ∃ v s1 t1 s2 t2,
    HashMap.fibonacci 8 7 true init_state = (Ok v, s1, t1) ∧
    HashMap.fibonacci 8 7 false s1 = (Ok v, s2, t2) ∧
    (∀ k w, fibs s1 !! k = Some w → fibs s2 !! k = Some w) ∧
    s2 = s1.
Proof.
  apply (C4_second_call_idempotent init_state 8%nat 7 true false). lia.
Defined.

(** C5.  In a reachable state, a call [fibonacci(n)] of the hash map
    implementation with [2 ≤ n] and enough stack completes, and afterwards
    the keys of [fibs] are exactly 2..n together with the keys it had
    before, every key holding the Fibonacci number of its index.  No call
    whatever, completed or not, removes a key or changes the value of
    one. *)
Theorem C5_cache_growth :
  (∀ s depth n track,
     reachable s → 2 ≤ n < Z.of_nat depth →
     ∃ s' t,
       HashMap.fibonacci depth n track s = (Ok (canonical n), s', t) ∧
       (∀ k, is_Some (fibs s' !! k) ↔ 2 ≤ k ≤ n ∨ is_Some (fibs s !! k)) ∧
       (∀ k v, fibs s' !! k = Some v → v = canonical k)) ∧
  (∀ s depth n track k v,
     fibs s !! k = Some v →
     fibs (state_of (HashMap.fibonacci depth n track s)) !! k = Some v).
Proof.
  split.
  - intros s depth n track Hs Hn.
    destruct (reachable_upto s Hs) as (m & Hm & Hup).
    pose proof (fibonacci_upto depth n track s m Hm Hup) as Hu.
    destruct (fibonacci_returns depth n track s) as [v Hv]; [lia|].
    destruct (HashMap.fibonacci depth n track s) as [[r s'] t].
    unfold value_of in Hv; cbn [fst] in Hv. subst r.
    destruct Hu as (_ & -> & Hup').
    exists s', t. split; [done|]. split.
    + intros k. rewrite Hup', Hup.
      assert (Hnone : ¬ is_Some (@None Z)) by (by intros [? [=]]).
      repeat case_decide; split; intros Hk;
        try (by eexists); try lia; try tauto.
      destruct Hk; [lia|done].
    + intros k v Hk. by apply (cache_upto_ok _ _ Hup') in Hk as [_ ->].
  - intros s depth n track k v Hk.
    pose proof (fibonacci_frame depth n track s) as (Hsub & _).
    by eapply lookup_weaken.
Qed.

Lemma C5_cache_growth_witness :
  (∃ s' t,
     HashMap.fibonacci 5 4 true init_state = (Ok (canonical 4), s', t) ∧
     (∀ k, is_Some (fibs s' !! k) ↔
           2 ≤ k ≤ 4 ∨ is_Some (fibs init_state !! k)) ∧
     (∀ k v, fibs s' !! k = Some v → v = canonical k)) ∧
  fibs (state_of (HashMap.fibonacci 1 2 true
                    (finish 2 1 false init_state))) !! 2 = Some 1.
Proof.
  split.
  - apply (proj1 C5_cache_growth init_state 5%nat 4 true).
    + apply reachable_init.
    + lia.
  - apply (proj2 C5_cache_growth (finish 2 1 false init_state) 1%nat 2 true 2 1).
    reflexivity.
Defined.

(** C6, as the claim has it, fails: a call of the iterative function with
    [track] set leaves the globals changed, [dyn_annots] being one entry
    longer. *)
Lemma C6_dyn_state_changed_counterexample :
  ¬ (∀ n track s, 0 ≤ n → state_of (DynProg.fibonacci n track s) = s).
Proof.
  intros H. specialize (H 0 true init_state ltac:(lia)).
  apply (f_equal dyn_annots) in H. discriminate H.
Qed.

(** C6, amended.  For [0 ≤ n] the iterative function builds an array of
    length n+1 and returns a value, both fixed by [n] alone whatever the
    state it is called in.  With [track] unset the call leaves the whole
    state as it was; with [track] set it appends that array as one
    annotation to [dyn_annots] and leaves [fibs] and [map_annots] as they
    were. *)
Theorem C6_dyn_independent_calls n :
  0 ≤ n →
  ∃ buf v,
    Z.of_nat (length buf) = n + 1 ∧
    ∀ track s,
      DynProg.fibonacci n track s = (Ok v, recorded buf track s, []) ∧
      recorded buf false s = s ∧
      fibs (recorded buf true s) = fibs s ∧
      map_annots (recorded buf true s) = map_annots s ∧
      dyn_annots (recorded buf true s) =
        dyn_annots s ++
        [Value (CapturedArray buf)
           "Found dynamic programming implementation" "dyn_array"].
Proof.
  intros Hn. exists (filled n n), (wrap (canonical n)).
  split; [rewrite length_filled; lia|].
  intros track s. by rewrite dyn_fibonacci_spec.
Qed.

Lemma C6_dyn_independent_calls_witness :
  ∃ buf v,
    Z.of_nat (length buf) = 3 + 1 ∧
    ∀ track s,
      DynProg.fibonacci 3 track s = (Ok v, recorded buf track s, []) ∧
      recorded buf false s = s ∧
      fibs (recorded buf true s) = fibs s ∧
      map_annots (recorded buf true s) = map_annots s ∧
      dyn_annots (recorded buf true s) =
        dyn_annots s ++
        [Value (CapturedArray buf)
           "Found dynamic programming implementation" "dyn_array"].
Proof. apply (C6_dyn_independent_calls 3). lia. Defined.

(** C7.  Calling [fibonacci(0)], ..., [fibonacci(k)] of the hash map
    implementation in increasing order from the empty dict, with as little
    as two frames of stack, completes with the Fibonacci numbers of 0..k.
    Over the whole loop the sum for an index is computed exactly once for
    each of the indices 2..k and never for another, and likewise for the
    insertion into the dict; the log of calls, additions and insertions has
    at most 5k+1 entries, and exactly 5k-3 from k = 1 on. *)
Theorem C7_memo_linear_work depth track s k :
  fibs s = ∅ → (2 ≤ depth)%nat → 0 ≤ k →
  ∃ s' t,
    HashMap.first_terms depth track (k + 1) s =
      (Ok (canonical <$> seqZ 0 (k + 1)), s', t) ∧
    (∀ i, occurrences (EvAdd i) t =
          if decide (2 ≤ i ≤ k) then 1%nat else 0%nat) ∧
    (∀ i, occurrences (EvStore i) t =
          if decide (2 ≤ i ≤ k) then 1%nat else 0%nat) ∧
    (∀ i, (occurrences (EvAdd i) t ≤ 1)%nat) ∧
    Z.of_nat (length t) ≤ 5 * k + 1 ∧
    (1 ≤ k → Z.of_nat (length t) = 5 * k - 3).
Proof.
  intros Hs Hd Hk.
  destruct depth as [|[|d]]; [lia..|].
  destruct (decide (k = 0)) as [->|Hk0].
  { exists s, [EvCall 0]. split; [reflexivity|].
    repeat split; intros; try case_decide; try lia; try reflexivity.
    unfold occurrences. rewrite filter_cons, filter_nil.
    case_decide; cbn; lia. }
  destruct (first_terms_run d track s (Z.to_nat (k - 1)) Hs) as (s' & Hrun & _).
  replace (Z.of_nat (Z.to_nat (k - 1)) + 2) with (k + 1) in Hrun by lia.
  exists s', (loop_trace (Z.of_nat (Z.to_nat (k - 1)) + 1)).
  split; [done|].
  pose proof (loop_trace_adds (Z.to_nat (k - 1))) as Hadds.
  pose proof (loop_trace_stores (Z.to_nat (k - 1))) as Hstores.
  pose proof (loop_trace_length (Z.to_nat (k - 1))) as Hlen.
  repeat split.
  - intros i. rewrite Hadds. repeat case_decide; (done || lia).
  - intros i. rewrite Hstores. repeat case_decide; (done || lia).
  - intros i. rewrite Hadds. case_decide; lia.
  - lia.
  - lia.
Qed.

Lemma C7_memo_linear_work_witness :
  ∃ s' t,
    HashMap.first_terms 2 false (29 + 1) init_state =
      (Ok (canonical <$> seqZ 0 (29 + 1)), s', t) ∧
    (∀ i, occurrences (EvAdd i) t =
          if decide (2 ≤ i ≤ 29) then 1%nat else 0%nat) ∧
    (∀ i, occurrences (EvStore i) t =
          if decide (2 ≤ i ≤ 29) then 1%nat else 0%nat) ∧
    (∀ i, (occurrences (EvAdd i) t ≤ 1)%nat) ∧
    Z.of_nat (length t) ≤ 5 * 29 + 1 ∧
    (1 ≤ 29 → Z.of_nat (length t) = 5 * 29 - 3).
Proof.
  apply (C7_memo_linear_work 2%nat false init_state 29).
  - reflexivity.
  - lia.
  - lia.
Defined.

(** C8.  For [0 ≤ n] the iterative function returns a signed 64-bit
    integer congruent to the canonical Fibonacci number modulo 2^64.  For
    every [93 ≤ n] that result differs from the exact Fibonacci number,
    which the hash map implementation returns. *)
Theorem C8_dyn_fixed_width :
  (∀ n track s,
     0 ≤ n →
     ∃ v, value_of (DynProg.fibonacci n track s) = Ok v ∧
          v = wrap (canonical n) ∧
          v mod 2 ^ 64 = canonical n mod 2 ^ 64 ∧
          - 2 ^ 63 ≤ v < 2 ^ 63) ∧
  (∀ n track s depth track' s',
     93 ≤ n < Z.of_nat depth → reachable s' →
     value_of (HashMap.fibonacci depth n track' s') = Ok (canonical n) ∧
     value_of (DynProg.fibonacci n track s) ≠ Ok (canonical n)) ∧
  (∃ n, 0 ≤ n ∧
        value_of (DynProg.fibonacci n true init_state) ≠
        value_of (HashMap.fibonacci (Z.to_nat n + 1) n true init_state)).
Proof.
  split; [|split].
  - intros n track s Hn. exists (wrap (canonical n)).
    rewrite dyn_fibonacci_spec by done.
    split; [done|]. split; [done|].
    split; [apply wrap_congruent|apply wrap_range].
  - intros n track s depth track' s' Hn Hs'.
    destruct (fibonacci_total depth n track' s') as (s1 & t & Hrun & _);
      [by apply reachable_cache_ok|lia|].
    rewrite Hrun, dyn_fibonacci_spec by lia.
    split; [done|].
    unfold value_of; cbn [fst]. intros [= Heq].
    by apply (wrap_canonical_overflow n); [lia|].
  - exists 93. split; [lia|].
    destruct (fibonacci_total (Z.to_nat 93 + 1) 93 true init_state)
      as (s1 & t & Hrun & _);
      [apply reachable_cache_ok, reachable_init|lia|].
    rewrite Hrun, dyn_fibonacci_spec by lia.
    unfold value_of; cbn [fst]. intros Heq%Ok_inj.
    by apply (wrap_canonical_overflow 93); [lia|].
Qed.

Lemma C8_dyn_fixed_width_witness :
  (∃ v, value_of (DynProg.fibonacci 100 false init_state) = Ok v ∧
        v = wrap (canonical 100) ∧
        v mod 2 ^ 64 = canonical 100 mod 2 ^ 64 ∧
        - 2 ^ 63 ≤ v < 2 ^ 63) ∧
  value_of (HashMap.fibonacci 101 100 false init_state) = Ok (canonical 100) ∧
  value_of (DynProg.fibonacci 100 false init_state) ≠ Ok (canonical 100).
Proof.
  split.
  - apply (proj1 C8_dyn_fixed_width 100 false init_state). lia.
  - apply (proj1 (proj2 C8_dyn_fixed_width)
             100 false init_state 101%nat false init_state).
    + lia.
    + apply reachable_init.
Defined.

(** C9.  A call [fibonacci(n, track=False)] of the hash map implementation
    with [3 ≤ n], neither [n] nor [n-1] stored, and enough stack, returns
    with [map_annots] strictly longer than before: the inner calls run with
    [track] on. *)
Theorem C9_track_false_still_annotates s depth n :
  3 ≤ n < Z.of_nat depth →
  fibs s !! n = None → fibs s !! (n - 1) = None →
  ∃ v s' t,
    HashMap.fibonacci depth n false s = (Ok v, s', t) ∧
    (length (map_annots s) < length (map_annots s'))%nat.
Proof.
  intros Hn Hc Hc1.
  destruct (fibonacci_returns depth n false s) as [v Hv]; [lia|].
  destruct depth as [|d]; [lia|].
  rewrite fibonacci_miss in Hv |- * by (done || lia).
  pose proof (fibonacci_annots_grow d (n - 1) s) as Hgrow.
  destruct (HashMap.fibonacci d (n - 1) true s) as [[[a|e] s1] t1];
    [|done].
  specialize (Hgrow a s1 t1 eq_refl ltac:(lia) ltac:(lia) Hc1).
  pose proof (fibonacci_frame d (n - 2) true s1) as (_ & _ & Ha2 & _).
  destruct (HashMap.fibonacci d (n - 2) true s1) as [[[b|e] s2] t2];
    [|done].
  apply prefix_length in Ha2. unfold state_of in Ha2; cbn [fst snd] in Ha2.
  eexists _, _, _. split; [done|]. cbn. lia.
Qed.

Lemma C9_track_false_still_annotates_witness :
  ∃ v s' t,
    HashMap.fibonacci 4 3 false init_state = (Ok v, s', t) ∧
    (length (map_annots init_state) < length (map_annots s'))%nat.
Proof.
  apply (C9_track_false_still_annotates init_state 4%nat 3).
  - lia.
  - reflexivity.
  - reflexivity.
Defined.

(** C10.  From two dicts in each of which every stored key holds the
    Fibonacci number of its index, the empty dict among them, two runs of
    the hash map implementation on the same [0 ≤ n] with enough stack
    return the same value. *)
Theorem C10_value_independent_of_cache n depth1 depth2 track1 track2 s1 s2 :
  0 ≤ n → n < Z.of_nat depth1 → n < Z.of_nat depth2 →
  cache_ok (fibs s1) → cache_ok (fibs s2) →
  value_of (HashMap.fibonacci depth1 n track1 s1) =
    value_of (HashMap.fibonacci depth2 n track2 s2) ∧
  value_of (HashMap.fibonacci depth1 n track1 s1) = Ok (canonical n) ∧
  cache_ok (fibs init_state).
Proof.
  intros Hn Hd1 Hd2 Hok1 Hok2.
  destruct (fibonacci_total depth1 n track1 s1 Hok1) as (? & ? & -> & _);
    [lia|].
  destruct (fibonacci_total depth2 n track2 s2 Hok2) as (? & ? & -> & _);
    [lia|].
  split; [done|]. split; [done|].
  intros k v. cbn. by rewrite lookup_empty.
Qed.

Lemma C10_value_independent_of_cache_witness :
  value_of (HashMap.fibonacci 7 6 true init_state) =
    value_of (HashMap.fibonacci 7 6 true (finish 5 5 false init_state)) ∧
  value_of (HashMap.fibonacci 7 6 true init_state) = Ok (canonical 6) ∧
  cache_ok (fibs init_state).
Proof.
  apply (C10_value_independent_of_cache 6 7%nat 7%nat true true
           init_state (finish 5 5 false init_state)).
  - lia.
  - lia.
  - lia.
  - intros k v. cbn. rewrite lookup_empty. discriminate.
  - intros k v. cbn. rewrite lookup_insert, lookup_empty.
    case_decide; [|discriminate]. intros [= <-]. subst k.
    split; [lia|reflexivity].
Defined.

(** ** Stack, work and annotations of one call *)

(** With the dict holding 2..m, a call on a natural number with more than
    n - m frames returns, and what it costs is fixed by n - m. *)
Lemma fibonacci_cold depth : ∀ n track s m,
  1 ≤ m → cache_upto m (fibs s) → 0 ≤ n →
  (0 < depth)%nat → n - m < Z.of_nat depth →
  ∃ s' t,
    HashMap.fibonacci depth n track s = (Ok (canonical n), s', t) ∧
    cache_upto (Z.max m n) (fibs s') ∧
    Z.of_nat (length t) = 1 + 4 * Z.max 0 (n - m) ∧
    Z.of_nat (length (map_annots s')) =
      Z.of_nat (length (map_annots s)) + cold_annots m n track ∧
    dyn_annots s' = dyn_annots s.
Proof.
  induction depth as [|d IH]; intros n track s m Hm Hup Hn Hd Hnm; [lia|].
  unfold cold_annots. destruct (decide (n ≤ m)) as [Hle|Hgt].
  - rewrite (fibonacci_ready _ _ _ _ m) by (done || lia).
    exists s, [EvCall n]. rewrite Z.max_l by lia.
    repeat split; (done || cbn; lia).
  - rewrite fibonacci_miss; [|lia|lia|].
    2: { rewrite Hup. case_decide; [lia|done]. }
    destruct (IH (n - 1) true s m Hm Hup) as (s1 & t1 & -> & Hup1 & Ht1 & Ha1 & Hd1);
      [lia..|].
    rewrite Z.max_r in Hup1 by lia.
    destruct d as [|d]; [lia|].
    rewrite (fibonacci_ready _ _ _ _ (n - 1)) by (done || lia).
    rewrite <- canonical_rec by lia.
    eexists _, _. split; [done|].
    rewrite Z.max_r by lia. unfold cold_annots in Ha1.
    repeat split.
    + apply cache_upto_insert; [lia|done].
    + cbn [length]. rewrite !length_app. cbn [length]. lia.
    + destruct track; cbn; rewrite ?length_app; cbn [length];
        case_decide; lia.
    + done.
Qed.


(** On a negative number the recursion descends through every frame. *)
Lemma fibonacci_descends depth : ∀ n track s m,
  1 ≤ m → cache_upto m (fibs s) → n < 0 →
  ∃ t, HashMap.fibonacci depth n track s = (Raise RecursionError, s, t) ∧
       length t = depth ∧
       ∀ e, e ∈ t → ∃ k, k ≤ n ∧ e = EvCall k.
Proof.
  induction depth as [|d IH]; intros n track s m Hm Hup Hn.
  { exists []. split; [done|]. split; [done|]. by intros e ?%elem_of_nil. }
  rewrite fibonacci_miss; [|lia|lia|].
  2: { rewrite Hup. case_decide; [lia|done]. }
  destruct (IH (n - 1) true s m Hm Hup) as (t1 & -> & Hlen & Hev); [lia|].
  eexists. split; [done|]. split; [cbn; lia|].
  intros e [->|He]%elem_of_cons.
  - exists n. split; [lia|done].
  - destruct (Hev e He) as (k & Hk & ->). exists k. split; [lia|done].
Qed.


(** ** The loops from any reachable dict *)

Lemma range_0_succ (j : nat) :
  range 0 (Z.of_nat (S j)) = range 0 (Z.of_nat j) ++ [Z.of_nat j].
Proof.
  unfold range. rewrite !Z.sub_0_r, seqZ_S. by rewrite Z.add_0_l.
Qed.

Lemma first_terms_from depth track s m (j : nat) :
  1 ≤ m → cache_upto m (fibs s) →
  ∃ s' t,
    HashMap.first_terms (S (S depth)) track (Z.of_nat j) s =
      (Ok (canonical <$> seqZ 0 (Z.of_nat j)), s', t) ∧
    cache_upto (Z.max m (Z.of_nat j - 1)) (fibs s') ∧
    Z.of_nat (length (map_annots s')) =
      Z.of_nat (length (map_annots s)) +
      (if track then Z.max 0 (Z.of_nat j - 1 - m) else 0) ∧
    map_annots s `prefix_of` map_annots s' ∧
    dyn_annots s' = dyn_annots s.
Proof.
  intros Hm Hup. unfold HashMap.first_terms.
  induction j as [|j (s1 & t1 & Hrun & Hup1 & Hlen1 & Hpre1 & Hd1)].
  - exists s, []. split; [reflexivity|].
    rewrite Z.max_l by lia. repeat split; try done.
    destruct track; lia.
  - rewrite range_0_succ, map_each_snoc, Hrun.
    destruct (fibonacci_cold (S (S depth)) (Z.of_nat j) track s1
                (Z.max m (Z.of_nat j - 1)))
      as (s2 & t2 & Hcall & Hup2 & _ & Hlen2 & Hd2); [lia|done|lia|lia|lia|].
    pose proof (fibonacci_frame (S (S depth)) (Z.of_nat j) track s1)
      as (_ & _ & Hpre2 & _).
    rewrite Hcall in Hpre2 |- *. unfold state_of in Hpre2; cbn [fst snd] in Hpre2.
    exists s2, (t1 ++ t2). split.
    { by rewrite seqZ_S, fmap_app, Z.add_0_l. }
    split.
    { by replace (Z.max m (Z.of_nat (S j) - 1))
        with (Z.max (Z.max m (Z.of_nat j - 1)) (Z.of_nat j)) by lia. }
    split; [|split; [by etrans|congruence]].
    rewrite Hlen2, Hlen1. unfold cold_annots.
    destruct track; case_decide; lia.
Qed.

(** ** The loops over the iterative function *)

Lemma recorded_frame a track s :
  fibs (recorded a track s) = fibs s ∧
  map_annots (recorded a track s) = map_annots s.
Proof. by destruct track. Qed.

Lemma dyn_first_terms_run track s (j : nat) :
  ∃ s',
    DynProg.first_terms track (Z.of_nat j) s =
      (Ok ((λ i, wrap (canonical i)) <$> seqZ 0 (Z.of_nat j)), s', []) ∧
    fibs s' = fibs s ∧
    map_annots s' = map_annots s ∧
    dyn_annots s' =
      dyn_annots s ++
      (if track
       then (λ i, Value (CapturedArray (filled i i))
                    "Found dynamic programming implementation" "dyn_array")
            <$> seqZ 0 (Z.of_nat j)
       else []).
Proof.
  unfold DynProg.first_terms.
  induction j as [|j (s1 & Hrun & Hf & Hm & Hd)].
  - exists s. split; [reflexivity|]. split; [done|]. split; [done|].
    destruct track; by rewrite app_nil_r.
  - rewrite range_0_succ, map_each_snoc, Hrun, dyn_fibonacci_spec by lia.
    eexists. split.
    { by rewrite seqZ_S, fmap_app, Z.add_0_l. }
    destruct (recorded_frame (filled (Z.of_nat j) (Z.of_nat j)) track s1)
      as [Hf' Hm'].
    split; [congruence|]. split; [congruence|].
    destruct track; cbn.
    + by rewrite Hd, seqZ_S, fmap_app, Z.add_0_l, app_assoc.
    + by rewrite Hd.
Qed.

(** The iterative function on a negative number. *)
Lemma dyn_fibonacci_negative n track s :
  n < 0 →
  DynProg.fibonacci n track s =
    if decide (n = -1)
    then (Raise IndexError, recorded [] track s, [])
    else (Raise ValueError, s, []).
Proof.
  intros Hn. case_decide as Heq.
  - subst n. by destruct track.
  - unfold DynProg.fibonacci, bind, lift, np_zeros.
    by destruct (Z.ltb_spec (n + 1) 0); [|lia].
Qed.

(** The array of a call that stays below index 93 is the canonical
    sequence itself. *)
Lemma filled_exact n :
  n ≤ 92 → filled n n = canonical <$> seqZ 0 (n + 1).
Proof.
  intros Hn. unfold filled. apply list_fmap_ext.
  intros i j [-> Hi]%lookup_seqZ.
  destruct (Z.leb_spec (0 + Z.of_nat i) n); [|lia].
  apply wrap_small.
  pose proof (canonical_nonneg (0 + Z.of_nat i)).
  pose proof (canonical_le (0 + Z.of_nat i) 92 ltac:(lia)) as Hle.
  rewrite canonical_92 in Hle. lia.
Qed.

(** ** The submitted function against the reference *)

Lemma submission_miss depth n s :
  n ≠ 0 → n ≠ 1 → fibs s !! n = None →
  Submission.fibonacci (S depth) n s =
    match Submission.fibonacci depth (n - 1) s with
    | (Ok a, s1, t1) =>
        match Submission.fibonacci depth (n - 2) s1 with
        | (Ok b, s2, t2) =>
            (Ok (a + b), finish n (a + b) false s2,
             EvCall n :: t1 ++ t2 ++ [EvAdd n; EvStore n])
        | (Raise e, s2, t2) => (Raise e, s2, EvCall n :: t1 ++ t2)
        end
    | (Raise e, s1, t1) => (Raise e, s1, EvCall n :: t1)
    end.
Proof.
  intros H0 H1 Hv. cbn [Submission.fibonacci]. unfold bind, tick, get_fibs.
  destruct (Z.eqb_spec n 0); [done|]. destruct (Z.eqb_spec n 1); [done|].
  rewrite Hv.
  destruct (Submission.fibonacci depth (n - 1) s) as [[[a|e] s1] t1];
    [|reflexivity].
  destruct (Submission.fibonacci depth (n - 2) s1) as [[[b|e] s2] t2];
    [|reflexivity].
  unfold store_fib, ret, finish. cbn. rewrite ?app_nil_r. reflexivity.
Qed.

Lemma submission_hit depth n s v :
  n ≠ 0 → n ≠ 1 → fibs s !! n = Some v →
  Submission.fibonacci (S depth) n s = (Ok v, s, [EvCall n]).
Proof.
  intros H0 H1 Hv. cbn [Submission.fibonacci]. unfold bind, tick, get_fibs.
  destruct (Z.eqb_spec n 0); [done|]. destruct (Z.eqb_spec n 1); [done|].
  rewrite Hv. reflexivity.
Qed.

(** Run on equal dicts, the submitted function and the reference one give
    the same result, the same dict and the same log; the submitted one
    leaves the annotation lists alone. *)
Lemma submission_simulates depth : ∀ n track s s',
  fibs s = fibs s' →
  let x := Submission.fibonacci depth n s in
  let y := HashMap.fibonacci depth n track s' in
  value_of x = value_of y ∧
  fibs (state_of x) = fibs (state_of y) ∧
  x.2 = y.2 ∧
  map_annots (state_of x) = map_annots s ∧
  dyn_annots (state_of x) = dyn_annots s.
Proof.
  induction depth as [|d IH]; intros n track s s' Heq; cbn zeta; [done|].
  destruct (decide (n = 0)) as [->|H0]; [done|].
  destruct (decide (n = 1)) as [->|H1]; [done|].
  destruct (fibs s !! n) as [v|] eqn:Hc.
  - rewrite (submission_hit _ _ _ v), (fibonacci_hit _ _ _ _ v) by congruence.
    done.
  - rewrite submission_miss, fibonacci_miss by congruence.
    pose proof (IH (n - 1) true s s' Heq) as (Hv1 & Hf1 & Ht1 & Ha1 & Hd1).
    destruct (Submission.fibonacci d (n - 1) s) as [[r1 s1] t1].
    destruct (HashMap.fibonacci d (n - 1) true s') as [[r1' s1'] t1'].
    unfold value_of, state_of in *; cbn [fst snd] in *. subst r1' t1'.
    destruct r1 as [a|e]; [|done].
    pose proof (IH (n - 2) true s1 s1' Hf1) as (Hv2 & Hf2 & Ht2 & Ha2 & Hd2).
    destruct (Submission.fibonacci d (n - 2) s1) as [[r2 s2] t2].
    destruct (HashMap.fibonacci d (n - 2) true s1') as [[r2' s2'] t2'].
    cbn [fst snd] in *. subst r2' t2'.
    destruct r2 as [b|e]; cbn [fst snd].
    + repeat split; cbn; congruence.
    + repeat split; congruence.
Qed.


(** ** Further properties of the two notebooks *)



(** X2.  In a reachable state a call of the hash map implementation on a
    negative number never returns: whatever the stack, it descends through
    all of it on ever smaller arguments, raises [RecursionError] and leaves
    the globals as they were. *)
Theorem X2_negative_argument_exhausts_stack s depth n track :
  reachable s → n < 0 →
  ∃ t,
    HashMap.fibonacci depth n track s = (Raise RecursionError, s, t) ∧
    length t = depth ∧
    ∀ e, e ∈ t → ∃ k, k ≤ n ∧ e = EvCall k.
Proof.
  intros (m & Hm & Hup)%reachable_upto Hn.
  by apply (fibonacci_descends depth n track s m).
Qed.

Lemma X2_negative_argument_exhausts_stack_witness :
  ∃ t,
    HashMap.fibonacci 50 (-1) true init_state =
      (Raise RecursionError, init_state, t) ∧
    length t = 50%nat ∧
    ∀ e, e ∈ t → ∃ k, k ≤ -1 ∧ e = EvCall k.
Proof.
  apply (X2_negative_argument_exhausts_stack init_state 50%nat (-1) true).
  - apply reachable_init.
  - lia.
Defined.



(** X4.  With the dict holding exactly 2..m, a single call of the hash map
    implementation on [0 ≤ n] with enough stack logs one call when
    [n ≤ m] and otherwise 1 + 4(n - m) calls, additions and insertions:
    the work of one call is linear in the number of missing terms. *)
Theorem X4_single_call_work s m depth n track :
  1 ≤ m → cache_upto m (fibs s) → 0 ≤ n →
  (0 < depth)%nat → n - m < Z.of_nat depth →
  Z.of_nat (length (HashMap.fibonacci depth n track s).2) =
    1 + 4 * Z.max 0 (n - m).
Proof.
  intros Hm Hup Hn Hd Hnm.
  by destruct (fibonacci_cold depth n track s m)
    as (s' & t & -> & _ & Hlen & _).
Qed.

Lemma X4_single_call_work_witness :
  Z.of_nat (length (HashMap.fibonacci 30 20 false init_state).2) =
    1 + 4 * Z.max 0 (20 - 1).
Proof.
  apply (X4_single_call_work init_state 1 30%nat 20 false).
  - lia.
  - apply cache_upto_empty.
  - lia.
  - lia.
  - lia.
Defined.

(** X5.  With the dict holding exactly 2..m, a completed call
    [fibonacci(n, track)] of the hash map implementation appends nothing to
    [map_annots] when [n ≤ m], and otherwise one annotation for each of
    the terms m+1..n-1 plus one for [n] itself when [track] is set. *)
Theorem X5_single_call_annotations s m depth n track :
  1 ≤ m → cache_upto m (fibs s) → 0 ≤ n →
  (0 < depth)%nat → n - m < Z.of_nat depth →
  Z.of_nat (length (map_annots (state_of (HashMap.fibonacci depth n track s)))) =
    Z.of_nat (length (map_annots s)) +
    (if decide (n ≤ m) then 0 else n - m - 1 + (if track then 1 else 0)).
Proof.
  intros Hm Hup Hn Hd Hnm.
  by destruct (fibonacci_cold depth n track s m)
    as (s' & t & -> & _ & _ & Hlen & _).
Qed.

Lemma X5_single_call_annotations_witness :
  Z.of_nat (length (map_annots
              (state_of (HashMap.fibonacci 30 20 false init_state)))) =
    Z.of_nat (length (map_annots init_state)) +
    (if decide (20 ≤ 1) then 0 else 20 - 1 - 1 + (if false then 1 else 0)).
Proof.
  apply (X5_single_call_annotations init_state 1 30%nat 20 false).
  - lia.
  - apply cache_upto_empty.
  - lia.
  - lia.
  - lia.
Defined.

(** X6.  The timed loop [for n in range(k): fibonacci(n, track=False)] of
    the hash map implementation, run in any reachable state with as little
    as two frames of stack, completes with the Fibonacci numbers of
    0..k-1 and appends nothing to either annotation list: in an increasing
    loop the inner calls never have to compute a term. *)
Theorem X6_timed_loop_appends_nothing s depth k :
  reachable s → (2 ≤ depth)%nat → 0 ≤ k →
  ∃ s' t,
    HashMap.first_terms depth false k s =
      (Ok (canonical <$> seqZ 0 k), s', t) ∧
    map_annots s' = map_annots s ∧
    dyn_annots s' = dyn_annots s ∧
    (∀ i, 2 ≤ i < k → fibs s' !! i = Some (canonical i)).
Proof.
  intros (m & Hm & Hup)%reachable_upto Hd Hk.
  destruct depth as [|[|d]]; [lia..|].
  destruct (first_terms_from d false s m (Z.to_nat k) Hm Hup)
    as (s' & t & Hrun & Hup' & Hlen & Hpre & Hdyn).
  rewrite Z2Nat.id in Hrun, Hup' by done.
  exists s', t. split; [done|]. split; [|split; [done|]].
  - symmetry. apply prefix_length_eq; [done|lia].
  - intros i Hi. rewrite Hup'. case_decide; [done|lia].
Qed.

Lemma X6_timed_loop_appends_nothing_witness :
  ∃ s' t,
    HashMap.first_terms 2 false 30 init_state =
      (Ok (canonical <$> seqZ 0 30), s', t) ∧
    map_annots s' = map_annots init_state ∧
    dyn_annots s' = dyn_annots init_state ∧
    (∀ i, 2 ≤ i < 30 → fibs s' !! i = Some (canonical i)).
Proof.
  apply (X6_timed_loop_appends_nothing init_state 2%nat 30).
  - apply reachable_init.
  - lia.
  - lia.
Defined.





(** X9.  The iterative function on a negative number: below -1 it raises
    [ValueError] and changes nothing; at -1 it raises [IndexError], after
    appending the empty array to [dyn_annots] when [track] is set.  It
    never returns a value. *)
Theorem X9_dyn_negative_argument n track s :
  n < 0 →
  (n < -1 → DynProg.fibonacci n track s = (Raise ValueError, s, [])) ∧
  (n = -1 →
   DynProg.fibonacci n track s = (Raise IndexError, recorded [] track s, [])) ∧
  (∀ v, value_of (DynProg.fibonacci n track s) ≠ Ok v).
Proof.
  intros Hn. rewrite dyn_fibonacci_negative by done.
  case_decide; repeat split; try done; lia.
Qed.

Lemma X9_dyn_negative_argument_witness :
  (-1 < -1 →
   DynProg.fibonacci (-1) true init_state = (Raise ValueError, init_state, [])) ∧
  (-1 = -1 →
   DynProg.fibonacci (-1) true init_state =
     (Raise IndexError, recorded [] true init_state, [])) ∧
  (∀ v, value_of (DynProg.fibonacci (-1) true init_state) ≠ Ok v).
Proof. apply (X9_dyn_negative_argument (-1) true init_state). lia. Defined.

(** X10.  The loop [for n in range(k): fibonacci(n, track)] over the
    iterative function completes in any state, returns the wrapped
    Fibonacci numbers of 0..k-1 (the exact ones when [k ≤ 93]), leaves
    [fibs] and [map_annots] as they were and lengthens [dyn_annots] by k
    entries when [track] is set and by none otherwise. *)
Theorem X10_dyn_loop track s k :
  0 ≤ k →
  ∃ s',
    DynProg.first_terms track k s =
      (Ok ((λ i, wrap (canonical i)) <$> seqZ 0 k), s', []) ∧
    (k ≤ 93 →
     (λ i, wrap (canonical i)) <$> seqZ 0 k = canonical <$> seqZ 0 k) ∧
    fibs s' = fibs s ∧
    map_annots s' = map_annots s ∧
    dyn_annots s `prefix_of` dyn_annots s' ∧
    Z.of_nat (length (dyn_annots s')) =
      Z.of_nat (length (dyn_annots s)) + (if track then k else 0).
Proof.
  intros Hk.
  destruct (dyn_first_terms_run track s (Z.to_nat k))
    as (s' & Hrun & Hf & Hm & Hd).
  rewrite Z2Nat.id in Hrun, Hd by done.
  exists s'. split; [done|]. split; [|split; [done|split; [done|]]].
  - intros Hk93. apply list_fmap_ext.
    intros i j [-> Hi]%lookup_seqZ. apply wrap_small.
    pose proof (canonical_nonneg (0 + Z.of_nat i)).
    pose proof (canonical_le (0 + Z.of_nat i) 92 ltac:(lia)) as Hle.
    rewrite canonical_92 in Hle. lia.
  - rewrite Hd. split; [by apply prefix_app_r|].
    rewrite length_app.
    destruct track; [rewrite length_fmap, length_seqZ|cbn]; lia.
Qed.

Lemma X10_dyn_loop_witness :
  ∃ s',
    DynProg.first_terms true 10 init_state =
      (Ok ((λ i, wrap (canonical i)) <$> seqZ 0 10), s', []) ∧
    (10 ≤ 93 →
     (λ i, wrap (canonical i)) <$> seqZ 0 10 = canonical <$> seqZ 0 10) ∧
    fibs s' = fibs init_state ∧
    map_annots s' = map_annots init_state ∧
    dyn_annots init_state `prefix_of` dyn_annots s' ∧
    Z.of_nat (length (dyn_annots s')) =
      Z.of_nat (length (dyn_annots init_state)) + (if true then 10 else 0).
Proof. apply (X10_dyn_loop true init_state 10). lia. Defined.

(** X11.  For [0 ≤ n ≤ 92] a tracked call of the iterative function
    appends to [dyn_annots] the array of the Fibonacci numbers of 0..n,
    in order. *)
Theorem X11_dyn_annotation_is_sequence n s :
  0 ≤ n ≤ 92 →
  dyn_annots (state_of (DynProg.fibonacci n true s)) =
    dyn_annots s ++
    [Value (CapturedArray (canonical <$> seqZ 0 (n + 1)))
       "Found dynamic programming implementation" "dyn_array"].
Proof.
  intros Hn. rewrite dyn_fibonacci_spec by lia.
  unfold state_of; cbn. by rewrite filled_exact by lia.
Qed.

Lemma X11_dyn_annotation_is_sequence_witness :
  dyn_annots (state_of (DynProg.fibonacci 9 true init_state)) =
    dyn_annots init_state ++
    [Value (CapturedArray (canonical <$> seqZ 0 (9 + 1)))
       "Found dynamic programming implementation" "dyn_array"].
Proof. apply (X11_dyn_annotation_is_sequence 9 init_state). lia. Defined.



(** X13.  From a dict in which every stored key holds its Fibonacci
    number, the submitted function called on [0 ≤ n] with more than n
    frames of stack returns the n-th Fibonacci number and leaves such a
    dict, with every earlier entry still in place. *)
Theorem X13_submission_correct depth n s :
  cache_ok (fibs s) → 0 ≤ n < Z.of_nat depth →
  ∃ s' t,
    Submission.fibonacci depth n s = (Ok (canonical n), s', t) ∧
    cache_ok (fibs s') ∧
    fibs s ⊆ fibs s'.
Proof.
  intros Hok Hn.
  pose proof (submission_simulates depth n false s s eq_refl)
    as (Hv & Hf & _).
  destruct (fibonacci_total depth n false s Hok Hn) as (s1 & t1 & Hrun & Hok1).
  pose proof (fibonacci_frame depth n false s) as (Hsub & _).
  rewrite Hrun in Hv, Hf, Hsub.
  destruct (Submission.fibonacci depth n s) as [[r s'] t].
  unfold value_of, state_of in *; cbn [fst snd] in *. subst r.
  exists s', t. rewrite Hf. done.
Qed.

Lemma X13_submission_correct_witness :
  ∃ s' t,
    Submission.fibonacci 30 29 init_state = (Ok (canonical 29), s', t) ∧
    cache_ok (fibs s') ∧
    fibs init_state ⊆ fibs s'.
Proof.
  apply (X13_submission_correct 30%nat 29 init_state).
  - intros k v. cbn. rewrite lookup_empty. discriminate.
  - lia.
Defined.



(** X15.  In any state and on any argument, a call [fibonacci(n)] of the
    hash map implementation, returning or not, leaves every key above [n]
    as it was, stored or absent, never touches [dyn_annots], and only
    appends to [map_annots]. *)
Theorem X15_call_frame s depth n track :
  (∀ k, n < k →
        fibs (state_of (HashMap.fibonacci depth n track s)) !! k = fibs s !! k) ∧
  dyn_annots (state_of (HashMap.fibonacci depth n track s)) = dyn_annots s ∧
  map_annots s `prefix_of`
    map_annots (state_of (HashMap.fibonacci depth n track s)).
Proof.
  by pose proof (fibonacci_frame depth n track s) as (_ & Hk & Ha & Hd).
Qed.
